(** * fastreg.ols: batched simple linear regression

    A shallow embedding of [fit] from [fastreg/ols.py] and the properties
    its specification states about it.

    Modelling conventions.
    - The input arrays hold finite float64 numbers; they are modelled by
      real numbers and every operation on finite values is exact (no
      rounding, no overflow).  What is proved is therefore the algebra of
      the routine; equalities that floating point only approximates are
      equalities here.
    - IEEE special values are kept: dividing by zero and taking the root of
      a negative number do not raise in NumPy, they yield [inf] or [nan],
      and these propagate.  Values computed by such operations have type
      [num]; signed zeros are not distinguished (every zero is [+0]).
    - Python exceptions are explicit: a computation has type [result A].
    - A 1-D array is a list; a 2-D array is its list of rows together with
      its number of columns (which a list of rows loses when it is empty).
    - SciPy's survival function of Student's t is a parameter [sf] of [fit];
      [student_sf] is its closed form for integral degrees of freedom.

    Outline: the NumPy operations [fit] uses, [fit] itself, its
    column-by-column form ([fit_columns], [fit_regular], [fit_singular]),
    the closed forms over the reals, and the properties C1 to C10. *)

From Stdlib Require Import Reals Lra Lia List ZArith Permutation Bool PeanoNat.
Import ListNotations.
Local Open Scope R_scope.

(** ** Exceptions *)

Inductive exn : Type :=
| ValueError         (* shapes not aligned *)
| LinAlgError        (* singular matrix, or not a square one *)
| ZeroDivisionError. (* Python scalar division by zero *)

Inductive result (A : Type) : Type :=
| Ok (a : A)
| Raise (e : exn).
Arguments Ok {A} a.
Arguments Raise {A} e.

Definition bind {A B : Type} (c : result A) (k : A -> result B) : result B :=
  match c with
  | Ok a => k a
  | Raise e => Raise e
  end.

Notation "x <- c ;; k" := (bind c (fun x => k))
  (at level 61, c at next level, right associativity).

Definition fmap {A B : Type} (f : A -> B) (c : result A) : result B :=
  x <- c ;; Ok (f x).

(** [mapM f l] runs [f] on the elements of [l] from left to right and
    stops at the first exception. *)
Fixpoint mapM {A B : Type} (f : A -> result B) (l : list A) : result (list B) :=
  match l with
  | [] => Ok []
  | a :: l' => b <- f a ;; bs <- mapM f l' ;; Ok (b :: bs)
  end.

(** ** float64 values: exact finite numbers and the IEEE special values *)

Inductive num : Type :=
| Fin (r : R)
| PInf
| NInf
| NaN.

(** The infinity with the sign of [x], for a product or quotient whose other
    operand is infinite or zero; [nan] when [x] is zero. *)
Definition signed_inf (x : R) : num :=
  if Rlt_dec 0 x then PInf else if Rlt_dec x 0 then NInf else NaN.

Definition nneg (a : num) : num :=
  match a with
  | Fin x => Fin (- x)
  | PInf => NInf
  | NInf => PInf
  | NaN => NaN
  end.

Definition nadd (a b : num) : num :=
  match a, b with
  | NaN, _ | _, NaN => NaN
  | Fin x, Fin y => Fin (x + y)
  | PInf, NInf | NInf, PInf => NaN
  | PInf, _ | _, PInf => PInf
  | NInf, _ | _, NInf => NInf
  end.

Definition nsub (a b : num) : num := nadd a (nneg b).

Definition nmul (a b : num) : num :=
  match a, b with
  | NaN, _ | _, NaN => NaN
  | Fin x, Fin y => Fin (x * y)
  | Fin x, PInf | PInf, Fin x => signed_inf x
  | Fin x, NInf | NInf, Fin x => signed_inf (- x)
  | PInf, PInf | NInf, NInf => PInf
  | PInf, NInf | NInf, PInf => NInf
  end.

Definition ndiv (a b : num) : num :=
  match a, b with
  | NaN, _ | _, NaN => NaN
  | Fin x, Fin y => if Req_dec_T y 0 then signed_inf x else Fin (x / y)
  | Fin _, (PInf | NInf) => Fin 0
  | PInf, Fin y => if Rlt_dec y 0 then NInf else PInf
  | NInf, Fin y => if Rlt_dec y 0 then PInf else NInf
  | (PInf | NInf), (PInf | NInf) => NaN
  end.

Definition nsqrt (a : num) : num :=
  match a with
  | Fin x => if Rlt_dec x 0 then NaN else Fin (sqrt x)
  | PInf => PInf
  | NInf | NaN => NaN
  end.

Definition nabs (a : num) : num :=
  match a with
  | Fin x => Fin (Rabs x)
  | PInf | NInf => PInf
  | NaN => NaN
  end.


(** ** Arrays *)

(** The arithmetic an array's element type provides. *)
Class Scalar (A : Type) : Type := {
  zero : A;
  add : A -> A -> A;
  sub : A -> A -> A;
  mul : A -> A -> A
}.

#[global] Instance R_Scalar : Scalar R :=
  {| zero := 0; add := Rplus; sub := Rminus; mul := Rmult |}.

#[global] Instance num_Scalar : Scalar num :=
  {| zero := Fin 0; add := nadd; sub := nsub; mul := nmul |}.

Record array2 (A : Type) : Type := mk2 {
  shape1 : nat;            (* number of columns *)
  rows : list (list A)     (* the rows, each of length [shape1] *)
}.
Arguments mk2 {A} shape1 rows.
Arguments shape1 {A} a.
Arguments rows {A} a.

Definition shape0 {A : Type} (a : array2 A) : nat := length (rows a).

(** [a] is a rectangular [n]-by-[m] array. *)
Definition has_shape {A : Type} (n m : nat) (a : array2 A) : Prop :=
  shape0 a = n /\ shape1 a = m /\ Forall (fun r => length r = m) (rows a).

Fixpoint map2 {A B C : Type} (f : A -> B -> C) (u : list A) (v : list B) : list C :=
  match u, v with
  | a :: u', b :: v' => f a b :: map2 f u' v'
  | _, _ => []
  end.

Section Arrays.
Context {A : Type} `{Scalar A}.

(** [a[:, j]] *)
Definition column (j : nat) (a : array2 A) : list A :=
  map (fun r => nth j r zero) (rows a).

(** [a.T] *)
Definition transpose (a : array2 A) : array2 A :=
  mk2 (shape0 a) (map (fun j => column j a) (seq 0 (shape1 a))).

(** [np.sum(u)]; with exact arithmetic the order of accumulation does not
    matter. *)
Fixpoint sum (u : list A) : A :=
  match u with
  | [] => zero
  | a :: u' => add a (sum u')
  end.

(** The inner product of two vectors of equal length. *)
Definition inner (u v : list A) : A := sum (map2 mul u v).

(** [np.dot(a, b)] for 2-D [a] and [b]. *)
Definition dot (a b : array2 A) : result (array2 A) :=
  if Nat.eqb (shape1 a) (shape0 b)
  then Ok (mk2 (shape1 b)
             (map (fun r => map (fun j => inner r (column j b)) (seq 0 (shape1 b)))
                  (rows a)))
  else Raise ValueError.

(** [np.dot(u, b)] for 1-D [u] and 2-D [b]. *)
Definition dot1 (u : list A) (b : array2 A) : result (list A) :=
  if Nat.eqb (length u) (shape0 b)
  then Ok (map (fun j => inner u (column j b)) (seq 0 (shape1 b)))
  else Raise ValueError.

(** [u ** 2] *)
Definition square (u : list A) : list A := map (fun a => mul a a) u.

(** [np.sum(a, 0)]: the sums of the columns. *)
Definition sum0 (a : array2 A) : list A :=
  map (fun j => sum (column j a)) (seq 0 (shape1 a)).

(** [a ** 2] for a 2-D array. *)
Definition square2 (a : array2 A) : array2 A :=
  mk2 (shape1 a) (map square (rows a)).

(** [stats.ss(u)]: the sum of squares of a 1-D array. *)
Definition ss (u : list A) : A := sum (square u).

(** [stats.ss(a)]: the sums of squares along axis 0 of a 2-D array. *)
Definition ss0 (a : array2 A) : list A := sum0 (square2 a).

(** [a - v]: a 1-D array broadcast over the rows of a 2-D one. *)
Definition sub_rows (a : array2 A) (v : list A) : array2 A :=
  mk2 (shape1 a) (map (fun r => map2 sub r v) (rows a)).
End Arrays.

(** An array of finite numbers seen as an array of float64 values. *)
Definition lift (u : list R) : list num := map Fin u.
Definition lift2 (a : array2 R) : array2 num :=
  mk2 (shape1 a) (map lift (rows a)).

(** [u.mean(0)] of a 1-D array; [nan] for an empty one. *)
Definition mean (u : list num) : num :=
  ndiv (sum u) (Fin (INR (length u))).

(** [a.mean(0)] of a 2-D array: the means of the columns. *)
Definition mean0 (a : array2 num) : list num :=
  map (fun j => mean (column j a)) (seq 0 (shape1 a)).

(** [np.vstack([a, v1, v2, ...])]: 1-D arrays stacked as further rows under a
    2-D one; all must have the same number of columns. *)
Definition vstack {A : Type} (a : array2 A) (vs : list (list A)) : result (array2 A) :=
  if forallb (fun v => Nat.eqb (length v) (shape1 a)) vs
  then Ok (mk2 (shape1 a) (rows a ++ vs))
  else Raise ValueError.

(** Python's [a / b] for a float [a] and an int [b]: it raises on [b = 0]
    where NumPy's array division would give [inf] or [nan]. *)
Definition py_div (a : R) (b : Z) : result num :=
  if Z.eqb b 0 then Raise ZeroDivisionError else Ok (Fin (a / IZR b)).

(** ** [np.linalg.solve] on 2-by-2 systems *)

(** LAPACK's [gesv] on a 2-by-2 system: LU factorisation with partial
    pivoting (the row whose first entry is larger in absolute value is the
    pivot row, the first one on a tie), then the two triangular solves.  A
    zero pivot makes the matrix singular, which NumPy reports as
    [LinAlgError]. *)
Definition lu_solve2 (a00 a01 a10 a11 b0 b1 : R) : result (R * R) :=
  let '(p0, p1, q0, q1, c0, c1) :=
    if Rlt_dec (Rabs a00) (Rabs a10)
    then (a10, a11, a00, a01, b1, b0)
    else (a00, a01, a10, a11, b0, b1) in
  if Req_dec_T p0 0 then Raise LinAlgError else
  let l := q0 / p0 in
  let u11 := q1 - l * p1 in
  if Req_dec_T u11 0 then Raise LinAlgError else
  let y1 := c1 - l * c0 in
  let x1 := y1 / u11 in
  let x0 := (c0 - p1 * x1) / p0 in
  Ok (x0, x1).

(** One system of the batch.  The design matrix has two columns, so only
    2-by-2 systems arise and only they are modelled. *)
Definition solve1 (a : array2 R) (b : list R) : result (list R) :=
  match rows a with
  | [[a00; a01]; [a10; a11]] =>
      match b with
      | [b0; b1] => s <- lu_solve2 a00 a01 a10 a11 b0 b1 ;; Ok [fst s; snd s]
      | _ => Raise ValueError
      end
  | _ => Raise LinAlgError
  end.

(** [np.linalg.solve(a, b)] for a stack [a] of matrices and a 2-D [b] that is
    a stack of right-hand-side vectors (NumPy 1.x reads a [b] with one
    dimension less than [a] this way).  The leading axes are broadcast; each
    system of the batch is factorised and solved on its own. *)
Definition linalg_solve (a : list (array2 R)) (b : array2 R) : result (array2 R) :=
  xs <- (if Nat.eqb (length a) (shape0 b)
         then mapM (fun ab => solve1 (fst ab) (snd ab)) (combine a (rows b))
         else match a, rows b with
              | [a0], bs => mapM (solve1 a0) bs
              | _, [b0] => mapM (fun ai => solve1 ai b0) a
              | _, _ => Raise ValueError
              end) ;;
  Ok (mk2 (shape1 b) xs).

(** ** [utils.add_constant] *)

(** Modelled from the spec: [utils.add_constant] is not among the sources.
    It appends a column of ones to the independent-variable vector, producing
    the [n]-by-2 augmented design matrix [[x | 1]]. *)
Definition add_constant (xdata : list R) : array2 R :=
  mk2 2 (map (fun xi => [xi; 1]) xdata).

(** ** [fit] *)

(** Small number to prevent divide-by-zero errors. *)
Definition TINY : R := 1e-20.

(** The t statistic of a correlation coefficient [r] with [df] degrees of
    freedom, as [fit] computes [tval], with the guard [eps] in both factors
    of the denominator. *)
Definition tstat (eps : R) (df : Z) (r : num) : num :=
  nmul r (nsqrt (ndiv (Fin (IZR df))
                      (nmul (nadd (nsub (Fin 1) r) (Fin eps))
                            (nadd (nadd (Fin 1) r) (Fin eps))))).

Section Fit.
(** [sf df t] is the survival function of Student's t distribution with
    [df > 0] degrees of freedom at a finite [t]; SciPy provides it. *)
Variable sf : Z -> R -> R.

(** [stats.distributions.t.sf(x, df)] on float64 values: [nan] for an
    invalid [df] or a [nan] argument, the limits at the infinities. *)
Definition t_sf (x : num) (df : Z) : num :=
  if Z.leb df 0 then NaN else
  match x with
  | Fin t => Fin (sf df t)
  | PInf => Fin 0
  | NInf => Fin 1
  | NaN => NaN
  end.

Definition fit (xdata : list R) (ydata : array2 R) : result (array2 num) :=
  (* Dimensions *)
  let ntim := length xdata in
  let nspat := shape1 ydata in
  (* Add a constant (1) to the xdata to allow for intercept calculation *)
  let xdata_plus_const := add_constant xdata in
  (* Parameters of the regression: the OLS problem in its matrix form.
     The dot product of a (2, n) with a (1, n, 2) array has shape
     (2, 1, 2); swapping its first two axes gives a stack of one 2-by-2
     matrix. *)
  xtx <- dot (transpose xdata_plus_const) xdata_plus_const ;;
  let mat1 := [xtx] in
  mat2 <- dot (transpose xdata_plus_const) ydata ;;
  beta <- linalg_solve mat1 (transpose mat2) ;;
  let output := transpose beta in
  (* Pearson correlation coefficient *)
  let xm := map (fun xi => nsub xi (mean (lift xdata))) (lift xdata) in
  let ym := sub_rows (lift2 ydata) (mean0 (lift2 ydata)) in
  r_num <- dot1 xm ym ;;
  let r_den := map nsqrt (map (nmul (ss xm)) (ss0 ym)) in
  let pearson_r := map2 ndiv r_num r_den in
  (* Two-sided p-value *)
  let df := (Z.of_nat ntim - 2)%Z in
  let tval := map (tstat TINY df) pearson_r in
  let pval := map (fun t => nmul (t_sf (nabs t) df) (Fin 2)) tval in
  (* Standard error of the slope estimate *)
  let sst := sum0 (square2 ym) in
  let ssr := map (fun s => nmul s (sum (square xm)))
                 (square (lift (nth 0 (rows output) []))) in
  inv_df <- py_div 1 df ;;
  let se := map nsqrt (map (nmul inv_df) (map2 nsub sst ssr)) in
  let stderr := map (fun s => ndiv s (nsqrt (sum (square xm)))) se in
  vstack (lift2 output) [pearson_r; pval; stderr].
End Fit.

(** ** What [fit] computes for one column

    The operations of [fit] restricted to one column [y] of [ydata]. *)

Definition ones (x : list R) : list R := map (fun _ => 1) x.

(** The normal equations of [y] on [[x | 1]], solved as [np.linalg.solve]
    does: slope first, intercept second. *)
Definition normal_solve (x y : list R) : result (R * R) :=
  lu_solve2 (inner x x) (inner x (ones x))
            (inner (ones x) x) (inner (ones x) (ones x))
            (inner x y) (inner (ones x) y).

(** [u - u.mean(0)] *)
Definition center (u : list R) : list num :=
  map (fun a => nsub a (mean (lift u))) (lift u).

Definition col_r (x y : list R) : num :=
  ndiv (inner (center x) (center y))
       (nsqrt (nmul (ss (center x)) (ss (center y)))).

Definition col_t (df : Z) (x y : list R) : num := tstat TINY df (col_r x y).

Definition col_p (sf : Z -> R -> R) (df : Z) (x y : list R) : num :=
  nmul (t_sf sf (nabs (col_t df x y)) df) (Fin 2).

Definition col_stderr (inv_df : num) (x y : list R) (slope : R) : num :=
  ndiv (nsqrt (nmul inv_df
                 (nsub (sum (square (center y)))
                       (nmul (nmul (Fin slope) (Fin slope)) (sum (square (center x)))))))
       (nsqrt (sum (square (center x)))).

(** ** The statistics of one regression, in closed form over the reals

    These follow the specification's words: [xm = x - mean(x)],
    [slope = sum(xm * ym) / sum(xm^2)],
    [intercept = mean(y) - slope * mean(x)]. *)

Definition rmean (u : list R) : R := sum u / INR (length u).

(** [u - mean(u)] *)
Definition dev (u : list R) : list R := map (fun a => a - rmean u) u.

Definition Sxx (x : list R) : R := sum (square (dev x)).
Definition Sxy (x y : list R) : R := inner (dev x) (dev y).

Definition ols_slope (x y : list R) : R := Sxy x y / Sxx x.
Definition ols_intercept (x y : list R) : R :=
  rmean y - ols_slope x y * rmean x.

(** The determinant of the normal matrix [X'^T X'] of [x]. *)
Definition normal_det (x : list R) : R :=
  inner x x * inner (ones x) (ones x) - inner x (ones x) * inner (ones x) x.

(** ** Reading and rearranging arrays *)


(** [u[sigma]]: the elements of [u] in the order of the index list [sigma]. *)
Definition permute {A : Type} (d : A) (sigma : list nat) (u : list A) : list A :=
  map (fun i => nth i u d) sigma.


(** [a[:, tau]] *)
Definition permute_cols {A : Type} (d : A) (tau : list nat) (a : array2 A) : array2 A :=
  mk2 (length tau) (map (permute d tau) (rows a)).

(** ** Student's t distribution

    The survival function in closed form for an integral number [nu] of
    degrees of freedom (Abramowitz and Stegun 26.7.3 and 26.7.4), with
    [theta = atan (t / sqrt nu)]; it instantiates [sf] in the examples. *)

(** [1, 1/2, (1*3)/(2*4), (1*3*5)/(2*4*6), ...] *)
Fixpoint coef_even (i : nat) : R :=
  match i with
  | O => 1
  | S i' => coef_even i' * (2 * INR i - 1) / (2 * INR i)
  end.

(** [1 + 1/2 c^2 + (1*3)/(2*4) c^4 + ...] up to the term in [c^(2k)]. *)
Fixpoint t_sum_even (k : nat) (c : R) : R :=
  match k with
  | O => 1
  | S k' => t_sum_even k' c + coef_even k * c ^ (2 * k)
  end.

(** [1, 2/3, (2*4)/(3*5), ...] *)
Fixpoint coef_odd (i : nat) : R :=
  match i with
  | O => 1
  | S i' => coef_odd i' * (2 * INR i) / (2 * INR i + 1)
  end.

(** [c + 2/3 c^3 + (2*4)/(3*5) c^5 + ...], [k] terms. *)
Fixpoint t_sum_odd (k : nat) (c : R) : R :=
  match k with
  | O => 0
  | S k' => t_sum_odd k' c + coef_odd k' * c ^ (2 * k' + 1)
  end.

(** The two closed forms as functions of [theta]. *)
Definition E_fun (k : nat) (theta : R) : R := sin theta * t_sum_even k (cos theta).
Definition O_fun (k : nat) (theta : R) : R :=
  theta + sin theta * t_sum_odd k (cos theta).

(** The probability that [|T| <= t] for [t >= 0], extended as an odd
    function of [t]. *)
Definition t_two_sided (nu : Z) (t : R) : R :=
  let theta := atan (t / sqrt (IZR nu)) in
  let k := Z.to_nat (nu / 2) in
  if Z.even nu
  then E_fun (k - 1) theta
  else 2 / PI * O_fun k theta.

Definition student_sf (nu : Z) (t : R) : R := (1 - t_two_sided nu t) / 2.

(** The remaining statistics of one column, over the reals, for data on
    which every division and root of [fit] is defined. *)

Definition pearson (x y : list R) : R := Sxy x y / sqrt (Sxx x * Sxx y).

Definition t_value (eps : R) (df : Z) (r : R) : R :=
  r * sqrt (IZR df / ((1 - r + eps) * (1 + r + eps))).

Definition slope_stderr (df : Z) (x y : list R) : R :=
  sqrt (1 / IZR df * (Sxx y - ols_slope x y * ols_slope x y * Sxx x)) / sqrt (Sxx x).

(** The five statistics of the regression of one column [y] on [x], in the
    order of the rows of the result. *)
Definition column_stats (sf : Z -> R -> R) (df : Z) (x y : list R) : list num :=
  [Fin (ols_slope x y);
   Fin (ols_intercept x y);
   col_r x y;
   col_p sf df x y;
   col_stderr (Fin (1 / IZR df)) x y (ols_slope x y)].

Definition sign (a : R) : R :=
  if Rlt_dec 0 a then 1 else if Rlt_dec a 0 then -1 else 0.

(** ** Proof steps for examples on concrete arrays *)

(** A literal array has the shape it is written with. *)
Ltac shape_tac := unfold has_shape, shape0; simpl; repeat split; repeat constructor.

(** Unfolds the centred sums of literal lists, leaving real arithmetic. *)
Ltac sums_tac := unfold Sxx, Sxy, dev, rmean, square, inner; simpl.

(** ** Residuals of a line *)

(** [y - (s * x + c)], sample by sample. *)
Definition residuals (s c : R) (x y : list R) : list R :=
  map2 (fun xi yi => yi - (s * xi + c)) x y.

(** The residual sum of squares of the line [s * x + c]. *)
Definition rss (s c : R) (x y : list R) : R := sum (square (residuals s c x y)).

(** ** Lists and the exception monad *)

Lemma nth_map_seq' {B : Type} (f : nat -> B) (m j : nat) (d : B) :
  (j < m)%nat -> nth j (map f (seq 0 m)) d = f j.
Proof.
  intros Hj.
  rewrite (nth_indep _ d (f 0%nat)) by (rewrite length_map, length_seq; exact Hj).
  rewrite map_nth, seq_nth by exact Hj. reflexivity.
Qed.

Lemma nth_map_in {B C : Type} (f : B -> C) (l : list B) (j : nat) (d : B) (d' : C) :
  (j < length l)%nat -> nth j (map f l) d' = f (nth j l d).
Proof.
  intros Hj. rewrite (nth_indep _ d' (f d)) by (rewrite length_map; exact Hj).
  apply map_nth.
Qed.

Lemma length_map2 {B C D : Type} (f : B -> C -> D) (u : list B) (v : list C) :
  length (map2 f u v) = Nat.min (length u) (length v).
Proof.
  revert v; induction u as [|a u IH]; intros [|b v]; simpl; auto.
Qed.

Lemma nth_map2 {B C D : Type} (f : B -> C -> D) (u : list B) (v : list C)
      (j : nat) (db : B) (dc : C) (dd : D) :
  (j < length u)%nat -> (j < length v)%nat ->
  nth j (map2 f u v) dd = f (nth j u db) (nth j v dc).
Proof.
  revert v j; induction u as [|a u IH]; intros [|b v] [|j]; simpl; intros Hu Hv;
    try lia; auto.
  apply IH; lia.
Qed.

Lemma map2_map_map {B C D E : Type} (f : C -> D -> E) (g : B -> C) (h : B -> D)
      (l : list B) :
  map2 f (map g l) (map h l) = map (fun a => f (g a) (h a)) l.
Proof. induction l; simpl; congruence. Qed.

Lemma map2_map_l {B C D E : Type} (f : C -> D -> E) (g : B -> C)
      (u : list B) (v : list D) :
  map2 f (map g u) v = map2 (fun a b => f (g a) b) u v.
Proof. revert v; induction u; intros [|b v]; simpl; congruence. Qed.

Lemma map2_map_r {B C D E : Type} (f : C -> D -> E) (g : B -> D)
      (u : list C) (v : list B) :
  map2 f u (map g v) = map2 (fun a b => f a (g b)) u v.
Proof. revert v; induction u; intros [|b v]; simpl; congruence. Qed.

Lemma map_map2 {B C D E : Type} (g : D -> E) (f : B -> C -> D)
      (u : list B) (v : list C) :
  map g (map2 f u v) = map2 (fun a b => g (f a b)) u v.
Proof. revert v; induction u; intros [|b v]; simpl; congruence. Qed.

Lemma mapM_map {B C D : Type} (f : C -> result D) (g : B -> C) (l : list B) :
  mapM f (map g l) = mapM (fun a => f (g a)) l.
Proof. induction l as [|a l IH]; simpl; [reflexivity | rewrite IH; reflexivity]. Qed.

Lemma mapM_fmap {B C D : Type} (f : B -> result C) (g : C -> D) (l : list B) :
  mapM (fun a => c <- f a ;; Ok (g c)) l = cs <- mapM f l ;; Ok (map g cs).
Proof.
  induction l as [|a l IH]; simpl; [reflexivity|].
  rewrite IH. destruct (f a); simpl; [|reflexivity].
  destruct (mapM f l); reflexivity.
Qed.

Lemma mapM_length {B C : Type} (f : B -> result C) (l : list B) (cs : list C) :
  mapM f l = Ok cs -> length cs = length l.
Proof.
  revert cs; induction l as [|a l IH]; simpl; intros cs Hcs.
  - inversion Hcs; reflexivity.
  - destruct (f a); simpl in Hcs; [|discriminate].
    destruct (mapM f l) as [bs|]; simpl in Hcs; [|discriminate].
    inversion Hcs; simpl. rewrite (IH bs); reflexivity.
Qed.

Lemma mapM_ok {B C : Type} (f : B -> result C) (g : B -> C) (l : list B) :
  (forall a, In a l -> f a = Ok (g a)) -> mapM f l = Ok (map g l).
Proof.
  induction l as [|a l IH]; simpl; intros Hf; [reflexivity|].
  rewrite (Hf a) by auto. simpl. rewrite IH by auto. reflexivity.
Qed.

Lemma mapM_raise {B C : Type} (f : B -> result C) (e : exn) (a : B) (l : list B) :
  f a = Raise e -> mapM f (a :: l) = Raise e.
Proof. intros Hf; simpl; rewrite Hf; reflexivity. Qed.

Lemma map_seq_nth {B : Type} (l : list B) (d : B) :
  map (fun i => nth i l d) (seq 0 (length l)) = l.
Proof.
  induction l as [|a l IH]; simpl; [reflexivity|].
  f_equal. rewrite <- seq_shift, map_map. exact IH.
Qed.

(** ** The array operations of [fit] *)

Lemma column_add_constant_0 (x : list R) : column 0 (add_constant x) = x.
Proof.
  unfold column, add_constant; simpl. rewrite map_map; simpl. apply map_id.
Qed.

Lemma column_add_constant_1 (x : list R) : column 1 (add_constant x) = ones x.
Proof.
  unfold column, add_constant; simpl. rewrite map_map; reflexivity.
Qed.

Lemma transpose_add_constant (x : list R) :
  transpose (add_constant x) = mk2 (length x) [x; ones x].
Proof.
  unfold transpose. simpl.
  rewrite column_add_constant_0, column_add_constant_1.
  unfold shape0, add_constant; simpl. rewrite length_map. reflexivity.
Qed.

Lemma dot_design_design (x : list R) :
  dot (transpose (add_constant x)) (add_constant x) =
  Ok (mk2 2 [[inner x x; inner x (ones x)];
             [inner (ones x) x; inner (ones x) (ones x)]]).
Proof.
  rewrite transpose_add_constant. unfold dot. 
  replace (shape0 (add_constant x)) with (length x)
    by (unfold shape0, add_constant; simpl; rewrite length_map; reflexivity).
  simpl shape1 at 1. rewrite Nat.eqb_refl. simpl.
  rewrite column_add_constant_0, column_add_constant_1. reflexivity.
Qed.

Lemma dot_design_ydata (x : list R) (ydata : array2 R) :
  shape0 ydata = length x ->
  dot (transpose (add_constant x)) ydata =
  Ok (mk2 (shape1 ydata)
        [map (fun j => inner x (column j ydata)) (seq 0 (shape1 ydata));
         map (fun j => inner (ones x) (column j ydata)) (seq 0 (shape1 ydata))]).
Proof.
  intros Hn. rewrite transpose_add_constant. unfold dot. simpl shape1 at 1.
  rewrite Hn, Nat.eqb_refl. reflexivity.
Qed.

Lemma transpose_two_rows {A} `{Scalar A} (m : nat) (f g : nat -> A) :
  transpose (mk2 m [map f (seq 0 m); map g (seq 0 m)]) =
  mk2 2 (map (fun j => [f j; g j]) (seq 0 m)).
Proof.
  unfold transpose, shape0; simpl. f_equal.
  apply map_ext_in. intros j Hj. apply in_seq in Hj.
  unfold column; simpl.
  rewrite !nth_map_seq' by lia. reflexivity.
Qed.

Lemma transpose_pairs {A} `{Scalar A} (ps : list (A * A)) :
  transpose (mk2 2 (map (fun s => [fst s; snd s]) ps)) =
  mk2 (length ps) [map fst ps; map snd ps].
Proof.
  unfold transpose, shape0, column; simpl. rewrite length_map, !map_map. reflexivity.
Qed.

Lemma linalg_solve_broadcast (a0 : array2 R) (b : array2 R) :
  linalg_solve [a0] b = xs <- mapM (solve1 a0) (rows b) ;; Ok (mk2 (shape1 b) xs).
Proof.
  unfold linalg_solve, shape0. simpl length.
  destruct (rows b) as [|b0 [|b1 bs]]; simpl; try reflexivity.
Qed.

Lemma column_lift2 (j : nat) (a : array2 R) :
  column j (lift2 a) = lift (column j a).
Proof.
  unfold column, lift2, lift; simpl. rewrite !map_map.
  apply map_ext. intros r. apply (map_nth Fin r 0 j).
Qed.

Lemma column_sub_rows {A} `{Scalar A} (n m j : nat) (a : array2 A) (v : list A) :
  has_shape n m a -> length v = m -> (j < m)%nat ->
  column j (sub_rows a v) = map (fun y => sub y (nth j v zero)) (column j a).
Proof.
  intros (_ & _ & Hr) Hv Hj. unfold column, sub_rows; simpl.
  rewrite !map_map. apply map_ext_in. intros r Hin.
  rewrite Forall_forall in Hr. specialize (Hr r Hin).
  apply nth_map2; lia.
Qed.

Lemma column_square2 {A} `{Scalar A} (n m j : nat) (a : array2 A) :
  has_shape n m a -> (j < m)%nat ->
  column j (square2 a) = square (column j a).
Proof.
  intros (_ & _ & Hr) Hj. unfold column, square2, square; simpl.
  rewrite !map_map. apply map_ext_in. intros r Hin.
  rewrite Forall_forall in Hr. specialize (Hr r Hin).
  apply (nth_map_in (fun a0 => mul a0 a0) r j zero zero); lia.
Qed.

Lemma has_shape_lift2 (n m : nat) (a : array2 R) :
  has_shape n m a -> has_shape n m (lift2 a).
Proof.
  intros (H0 & H1 & Hr). unfold has_shape, shape0, lift2, lift in *; simpl.
  rewrite length_map. repeat split; auto.
  rewrite Forall_map. eapply Forall_impl; [|exact Hr].
  intros r Hlen; simpl in *. rewrite length_map; exact Hlen.
Qed.

Lemma has_shape_sub_rows {A} `{Scalar A} (n m : nat) (a : array2 A) (v : list A) :
  has_shape n m a -> length v = m -> has_shape n m (sub_rows a v).
Proof.
  intros (H0 & H1 & Hr) Hv. unfold has_shape, shape0, sub_rows in *; simpl.
  rewrite length_map. repeat split; auto.
  rewrite Forall_map. eapply Forall_impl; [|exact Hr].
  intros r Hlen; simpl in *. rewrite length_map2. lia.
Qed.

(** Column [j] of [ym] is the centred column [j] of [ydata]. *)
Lemma column_ym (n m j : nat) (ydata : array2 R) :
  has_shape n m ydata -> (j < m)%nat ->
  column j (sub_rows (lift2 ydata) (mean0 (lift2 ydata))) = center (column j ydata).
Proof.
  intros Hs Hj.
  assert (Hs' := has_shape_lift2 _ _ _ Hs).
  assert (Hm : shape1 (lift2 ydata) = m) by apply Hs'.
  rewrite (column_sub_rows n m) ; auto.
  2:{ unfold mean0. rewrite length_map, length_seq. exact Hm. }
  unfold mean0. rewrite Hm, nth_map_seq' by exact Hj.
  rewrite column_lift2. reflexivity.
Qed.

Lemma mapM_ext {B C : Type} (f g : B -> result C) (l : list B) :
  (forall a, In a l -> f a = g a) -> mapM f l = mapM g l.
Proof.
  induction l as [|a l IH]; simpl; intros Hfg; [reflexivity|].
  rewrite (Hfg a), IH by auto. reflexivity.
Qed.

Lemma sum0_columns {A} `{Scalar A} (a : array2 A) (m : nat) (f : nat -> list A) :
  shape1 a = m -> (forall j, (j < m)%nat -> column j a = f j) ->
  sum0 a = map (fun j => sum (f j)) (seq 0 m).
Proof.
  intros Hm Hc. unfold sum0. rewrite Hm. apply map_ext_in.
  intros j Hj. apply in_seq in Hj. rewrite Hc by lia. reflexivity.
Qed.

Lemma fit_columns (sf : Z -> R -> R) (x : list R) (ydata : array2 R) (n m : nat) :
  length x = n -> has_shape n m ydata ->
  fit sf x ydata =
    betas <- mapM (fun j => normal_solve x (column j ydata)) (seq 0 m) ;;
    inv_df <- py_div 1 (Z.of_nat n - 2) ;;
    Ok (mk2 m [lift (map fst betas); lift (map snd betas);
               map (fun j => col_r x (column j ydata)) (seq 0 m);
               map (fun j => col_p sf (Z.of_nat n - 2) x (column j ydata)) (seq 0 m);
               map2 (fun j b => col_stderr inv_df x (column j ydata) (fst b))
                    (seq 0 m) betas]).
Proof.
  intros Hn Hs.
  assert (Hs0 : shape0 ydata = n) by apply Hs.
  assert (Hs1 : shape1 ydata = m) by apply Hs.
  unfold fit.
  rewrite dot_design_design; cbn [bind].
  rewrite dot_design_ydata by congruence; cbn [bind].
  rewrite Hs1, transpose_two_rows, linalg_solve_broadcast.
  cbn [rows shape1]. rewrite mapM_map.
  rewrite (mapM_ext _ (fun j => s <- normal_solve x (column j ydata) ;;
                                Ok [fst s; snd s])) by reflexivity.
  rewrite mapM_fmap.
  destruct (mapM _ (seq 0 m)) as [betas|e] eqn:Hb; cbn [bind]; [|reflexivity].
  assert (Hlen : length betas = m).
  { rewrite (mapM_length _ _ _ Hb). apply length_seq. }
  rewrite transpose_pairs, Hlen.
  set (ym := sub_rows (lift2 ydata) (mean0 (lift2 ydata))).
  assert (Hym : has_shape n m ym).
  { apply has_shape_sub_rows; [apply has_shape_lift2; exact Hs|].
    unfold mean0, lift2; simpl. rewrite length_map, length_seq. exact Hs1. }
  assert (Hcol : forall j, (j < m)%nat -> column j ym = center (column j ydata)).
  { intros j Hj. apply (column_ym n m); assumption. }
  fold (center x).
  unfold dot1.
  replace (length (center x)) with n
    by (unfold center, lift; rewrite !length_map; symmetry; exact Hn).
  replace (shape0 ym) with n by (symmetry; apply Hym).
  replace (shape1 ym) with m by (symmetry; apply Hym).
  rewrite Nat.eqb_refl; cbn [bind].
  unfold ss0.
  rewrite (sum0_columns (square2 ym) m (fun j => square (center (column j ydata)))).
  2:{ simpl. apply Hym. }
  2:{ intros j Hj. rewrite (column_square2 n m) by assumption.
      rewrite Hcol by assumption. reflexivity. }
  rewrite (map_ext_in (fun j => inner (center x) (column j ym))
                      (fun j => inner (center x) (center (column j ydata)))).
  2:{ intros j Hj. apply in_seq in Hj. rewrite Hcol by lia. reflexivity. }
  rewrite !map_map, map2_map_map.
  rewrite Hn.
  destruct (py_div 1 (Z.of_nat n - 2)) as [inv_df|e]; cbn [bind]; [|reflexivity].
  unfold vstack. cbn [lift2 shape1 rows forallb nth].
  unfold lift, square.
  repeat rewrite ?length_map, ?length_map2, ?length_seq, ?Hlen, ?Nat.min_id.
  rewrite Nat.eqb_refl. cbn [andb map app].
  rewrite !map_map, map_map2, map2_map_l, map2_map_r.
  reflexivity.
Qed.

(** ** Finite values *)

Lemma sum_lift (u : list R) : sum (lift u) = Fin (sum u).
Proof. induction u as [|a u IH]; simpl; [reflexivity | rewrite IH; reflexivity]. Qed.

Lemma map2_lift (f : R -> R -> R) (g : num -> num -> num) (u v : list R) :
  (forall a b, g (Fin a) (Fin b) = Fin (f a b)) ->
  map2 g (lift u) (lift v) = lift (map2 f u v).
Proof.
  intros Hg. revert v; induction u as [|a u IH]; intros [|b v]; simpl; auto.
  rewrite Hg, IH. reflexivity.
Qed.

Lemma inner_lift (u v : list R) : inner (lift u) (lift v) = Fin (inner u v).
Proof.
  unfold inner. rewrite (map2_lift Rmult) by reflexivity. apply sum_lift.
Qed.

Lemma square_lift (u : list R) : square (lift u) = lift (square u).
Proof. unfold square, lift. rewrite !map_map. reflexivity. Qed.

Lemma ndiv_fin (a b : R) : b <> 0 -> ndiv (Fin a) (Fin b) = Fin (a / b).
Proof. intros Hb; simpl. destruct (Req_dec_T b 0); [contradiction | reflexivity]. Qed.

Lemma nsqrt_fin (a : R) : 0 <= a -> nsqrt (Fin a) = Fin (sqrt a).
Proof. intros Ha; simpl. destruct (Rlt_dec a 0); [lra | reflexivity]. Qed.

Lemma INR_length_neq_0 {B : Type} (u : list B) : u <> [] -> INR (length u) <> 0.
Proof.
  destruct u as [|a u]; [congruence|]. intros _.
  apply not_0_INR. simpl; lia.
Qed.

Lemma mean_lift (u : list R) : u <> [] -> mean (lift u) = Fin (rmean u).
Proof.
  intros Hu. unfold mean, rmean, lift. rewrite length_map.
  fold (lift u). rewrite sum_lift. apply ndiv_fin, INR_length_neq_0, Hu.
Qed.

Lemma center_lift (u : list R) : u <> [] -> center u = lift (dev u).
Proof.
  intros Hu. unfold center, dev. rewrite mean_lift by exact Hu.
  unfold lift. rewrite !map_map. reflexivity.
Qed.

(** ** Sums over the reals *)

Lemma map2_diag {B C : Type} (f : B -> B -> C) (u : list B) :
  map2 f u u = map (fun a => f a a) u.
Proof. induction u; simpl; congruence. Qed.

Lemma ss_inner (u : list R) : sum (square u) = inner u u.
Proof. unfold inner, square. rewrite map2_diag. reflexivity. Qed.

Lemma inner_ones_r (x : list R) : inner x (ones x) = sum x.
Proof.
  unfold inner, ones. induction x as [|a x IH]; simpl in *; [reflexivity|].
  rewrite IH. lra.
Qed.

Lemma inner_ones_l (x y : list R) :
  length y = length x -> inner (ones x) y = sum y.
Proof.
  unfold inner, ones. revert y; induction x as [|a x IH]; intros [|b y] Hl;
    simpl in *; try discriminate; [reflexivity|].
  rewrite IH by lia. lra.
Qed.

Lemma inner_ones_ones (x : list R) : inner (ones x) (ones x) = INR (length x).
Proof.
  rewrite inner_ones_l by (unfold ones; rewrite length_map; reflexivity).
  unfold ones. induction x as [|a x IH]; [reflexivity|].
  cbn [map sum length]. rewrite IH, S_INR. simpl. ring.
Qed.

Lemma sum_square_nonneg (u : list R) : 0 <= sum (square u).
Proof.
  unfold square. induction u as [|a u IH]; simpl in *; [lra|]. nra.
Qed.

Lemma sum_square_zero (u : list R) :
  sum (square u) = 0 -> Forall (fun a => a = 0) u.
Proof.
  unfold square. induction u as [|a u IH]; simpl in *; intros Hs; constructor;
    pose proof (sum_square_nonneg u) as Hu; unfold square in Hu; simpl in Hu.
  - nra.
  - apply IH. nra.
Qed.

(** Sums of products of deviations from arbitrary centres. *)
Lemma inner_shift (c d : R) (x y : list R) :
  length y = length x ->
  inner (map (fun a => a - c) x) (map (fun b => b - d) y) =
  inner x y - d * sum x - c * sum y + INR (length x) * c * d.
Proof.
  unfold inner. revert y; induction x as [|a x IH]; intros [|b y] Hl;
    simpl in *; try discriminate.
  - lra.
  - rewrite IH by lia. destruct (length x); simpl; lra.
Qed.

Lemma Sxy_expand (x y : list R) :
  x <> [] -> length y = length x ->
  Sxy x y = inner x y - sum x * sum y / INR (length x).
Proof.
  intros Hx Hl. unfold Sxy, dev. rewrite inner_shift by exact Hl.
  unfold rmean. rewrite Hl. pose proof (INR_length_neq_0 x Hx). field. assumption.
Qed.

Lemma Sxx_Sxy (x : list R) : Sxx x = Sxy x x.
Proof. unfold Sxx, Sxy. apply ss_inner. Qed.

Lemma Sxx_nonneg (x : list R) : 0 <= Sxx x.
Proof. apply sum_square_nonneg. Qed.

Lemma normal_det_Sxx (x : list R) : normal_det x = INR (length x) * Sxx x.
Proof.
  unfold normal_det. rewrite inner_ones_ones, inner_ones_r, inner_ones_l by reflexivity.
  destruct x as [|a x].
  - unfold Sxx, inner; simpl. lra.
  - rewrite Sxx_Sxy, Sxy_expand by (congruence || reflexivity).
    pose proof (INR_length_neq_0 (a :: x)) as Hn. field. apply Hn; congruence.
Qed.

(** ** The 2-by-2 solve *)

Lemma lu_solve2_singular (a00 a01 a10 a11 b0 b1 : R) :
  a00 * a11 - a01 * a10 = 0 ->
  lu_solve2 a00 a01 a10 a11 b0 b1 = Raise LinAlgError.
Proof.
  intros Hdet. unfold lu_solve2.
  destruct (Rlt_dec (Rabs a00) (Rabs a10)) as [Hlt|Hge].
  - destruct (Req_dec_T a10 0) as [|Hp]; [reflexivity|].
    destruct (Req_dec_T (a01 - a00 / a10 * a11) 0) as [|Hu]; [reflexivity|].
    exfalso; apply Hu. field_simplify; [|exact Hp].
    replace (a01 * a10 - a00 * a11) with (- (a00 * a11 - a01 * a10)) by ring.
    rewrite Hdet. field. exact Hp.
  - destruct (Req_dec_T a00 0) as [|Hp]; [reflexivity|].
    destruct (Req_dec_T (a11 - a10 / a00 * a01) 0) as [|Hu]; [reflexivity|].
    exfalso; apply Hu. field_simplify; [|exact Hp].
    replace (a11 * a00 - a10 * a01) with (a00 * a11 - a01 * a10) by ring.
    rewrite Hdet. field. exact Hp.
Qed.

(** With a non-zero determinant the factorisation goes through and the
    solution is the one Cramer's rule gives. *)
Lemma lu_solve2_cramer (a00 a01 a10 a11 b0 b1 : R) :
  let det := a00 * a11 - a01 * a10 in
  det <> 0 ->
  lu_solve2 a00 a01 a10 a11 b0 b1 =
  Ok ((b0 * a11 - a01 * b1) / det, (a00 * b1 - a10 * b0) / det).
Proof.
  intros det Hdet. unfold det in *. unfold lu_solve2.
  destruct (Rlt_dec (Rabs a00) (Rabs a10)) as [Hlt|Hge].
  - destruct (Req_dec_T a10 0) as [Hz|Hp].
    { subst a10. rewrite Rabs_R0 in Hlt. pose proof (Rabs_pos a00). lra. }
    assert (Hu : a01 - a00 / a10 * a11 <> 0).
    { intros Hu. apply Hdet.
      assert (Hm : (a01 - a00 / a10 * a11) * a10 = 0) by (rewrite Hu; ring).
      field_simplify in Hm; [|exact Hp]. lra. }
    destruct (Req_dec_T (a01 - a00 / a10 * a11) 0) as [|_]; [contradiction|].
    f_equal. f_equal; field; repeat split; try assumption;
      intros Hc; apply Hdet; lra.
  - destruct (Req_dec_T a00 0) as [Hz|Hp].
    { subst a00. rewrite Rabs_R0 in Hge.
      assert (a10 = 0).
      { destruct (Req_dec_T a10 0) as [|Hn]; [assumption|].
        exfalso; apply Hge. apply Rabs_pos_lt; exact Hn. }
      subst a10. exfalso; apply Hdet; ring. }
    assert (Hu : a11 - a10 / a00 * a01 <> 0).
    { intros Hu. apply Hdet.
      assert (Hm : (a11 - a10 / a00 * a01) * a00 = 0) by (rewrite Hu; ring).
      field_simplify in Hm; [|exact Hp]. lra. }
    destruct (Req_dec_T (a11 - a10 / a00 * a01) 0) as [|_]; [contradiction|].
    f_equal. f_equal; field; repeat split; try assumption;
      intros Hc; apply Hdet; lra.
Qed.

(** ** The normal equations of one column *)

Lemma Sxx_nil : Sxx [] = 0.
Proof. reflexivity. Qed.

Lemma Sxx_neq_0_nonempty (x : list R) : Sxx x <> 0 -> x <> [].
Proof. intros Hx Hnil. subst x. apply Hx, Sxx_nil. Qed.

Lemma normal_solve_singular (x y : list R) :
  Sxx x = 0 -> normal_solve x y = Raise LinAlgError.
Proof.
  intros Hx. unfold normal_solve. apply lu_solve2_singular.
  fold (normal_det x). rewrite normal_det_Sxx, Hx. ring.
Qed.

Lemma normal_solve_ols (x y : list R) :
  Sxx x <> 0 -> length y = length x ->
  normal_solve x y = Ok (ols_slope x y, ols_intercept x y).
Proof.
  intros Hx Hl. pose proof (Sxx_neq_0_nonempty x Hx) as Hne.
  pose proof (INR_length_neq_0 x Hne) as Hn.
  unfold normal_solve. rewrite lu_solve2_cramer.
  2:{ fold (normal_det x). rewrite normal_det_Sxx.
      apply Rmult_integral_contrapositive_currified; assumption. }
  fold (normal_det x). rewrite normal_det_Sxx.
  unfold ols_intercept, ols_slope, rmean.
  rewrite inner_ones_ones, inner_ones_r, !inner_ones_l by (reflexivity || exact Hl).
  rewrite (Sxy_expand x y) by assumption.
  assert (Hxx : inner x x = Sxx x + sum x * sum x / INR (length x)).
  { rewrite Sxx_Sxy, Sxy_expand by (assumption || reflexivity). field. exact Hn. }
  rewrite Hxx, Hl. f_equal. f_equal; field; split; assumption.
Qed.

(** ** [fit], column by column *)

Lemma length_column {A : Type} `{Scalar A} (n m j : nat) (a : array2 A) :
  has_shape n m a -> length (column j a) = n.
Proof. intros (H0 & _). unfold column. rewrite length_map. exact H0. Qed.

Lemma fit_singular (sf : Z -> R -> R) (x : list R) (ydata : array2 R) (n m : nat) :
  length x = n -> has_shape n m ydata -> Sxx x = 0 -> (0 < m)%nat ->
  fit sf x ydata = Raise LinAlgError.
Proof.
  intros Hn Hs Hx Hm. rewrite (fit_columns sf x ydata n m) by assumption.
  destruct m as [|m]; [lia|]. cbn [seq].
  rewrite (mapM_raise _ LinAlgError) by (apply normal_solve_singular; exact Hx).
  reflexivity.
Qed.

Lemma fit_regular (sf : Z -> R -> R) (x : list R) (ydata : array2 R) (n m : nat) :
  length x = n -> has_shape n m ydata -> Sxx x <> 0 ->
  fit sf x ydata =
    inv_df <- py_div 1 (Z.of_nat n - 2) ;;
    Ok (mk2 m
          [map (fun j => Fin (ols_slope x (column j ydata))) (seq 0 m);
           map (fun j => Fin (ols_intercept x (column j ydata))) (seq 0 m);
           map (fun j => col_r x (column j ydata)) (seq 0 m);
           map (fun j => col_p sf (Z.of_nat n - 2) x (column j ydata)) (seq 0 m);
           map (fun j => col_stderr inv_df x (column j ydata)
                           (ols_slope x (column j ydata))) (seq 0 m)]).
Proof.
  intros Hn Hs Hx. rewrite (fit_columns sf x ydata n m) by assumption.
  rewrite (mapM_ok _ (fun j => (ols_slope x (column j ydata),
                                ols_intercept x (column j ydata)))).
  2:{ intros j _. apply normal_solve_ols; [exact Hx|].
      rewrite (length_column n m) by exact Hs. symmetry; exact Hn. }
  cbn [bind]. destruct (py_div 1 (Z.of_nat n - 2)); cbn [bind]; [|reflexivity].
  unfold lift. rewrite !map_map, map2_map_r, map2_diag. reflexivity.
Qed.

Lemma fit_no_columns (sf : Z -> R -> R) (x : list R) (ydata : array2 R) (n : nat) :
  length x = n -> has_shape n 0 ydata ->
  fit sf x ydata =
    inv_df <- py_div 1 (Z.of_nat n - 2) ;; Ok (mk2 0 [[]; []; []; []; []]).
Proof.
  intros Hn Hs. rewrite (fit_columns sf x ydata n 0) by assumption. reflexivity.
Qed.

Lemma py_div_df (n : nat) :
  (3 <= n)%nat ->
  py_div 1 (Z.of_nat n - 2) = Ok (Fin (1 / IZR (Z.of_nat n - 2))).
Proof.
  intros Hn. unfold py_div.
  destruct (Z.eqb_spec (Z.of_nat n - 2) 0); [lia | reflexivity].
Qed.

(** ** The Cauchy-Schwarz inequality *)

Lemma inner_combination (p q : R) (u v : list R) :
  length v = length u ->
  sum (square (map2 (fun a b => p * b - q * a) u v)) =
  p * p * inner v v - 2 * p * q * inner u v + q * q * inner u u.
Proof.
  unfold inner, square. revert v; induction u as [|a u IH]; intros [|b v] Hl;
    simpl in *; try discriminate.
  - ring.
  - rewrite IH by lia. ring.
Qed.

Lemma inner_zero_l (u v : list R) :
  Forall (fun a => a = 0) u -> inner u v = 0.
Proof.
  unfold inner. intros Hu; revert v; induction Hu as [|a u Ha Hu IH]; intros [|b v];
    simpl in *; try reflexivity.
  rewrite IH, Ha. ring.
Qed.

Lemma cauchy_schwarz (u v : list R) :
  length v = length u ->
  inner u v * inner u v <= inner u u * inner v v.
Proof.
  intros Hl.
  pose proof (sum_square_nonneg u) as Huu. rewrite ss_inner in Huu.
  destruct (Req_dec_T (inner u u) 0) as [Hz|Hnz].
  - rewrite <- ss_inner in Hz. apply sum_square_zero in Hz.
    rewrite (inner_zero_l u v Hz), (inner_zero_l u u Hz). lra.
  - pose proof (sum_square_nonneg
                  (map2 (fun a b => inner u u * b - inner u v * a) u v)) as Hs.
    rewrite inner_combination in Hs by exact Hl.
    assert (Hpos : 0 < inner u u) by lra.
    assert (Hm : 0 <= inner u u * (inner u u * inner v v - inner u v * inner u v))
      by lra.
    apply Rmult_le_reg_l with (r := inner u u); [exact Hpos|]. lra.
Qed.

Lemma length_dev (u : list R) : length (dev u) = length u.
Proof. unfold dev. apply length_map. Qed.

Lemma Sxy_cauchy_schwarz (x y : list R) :
  length y = length x -> Sxy x y * Sxy x y <= Sxx x * Sxx y.
Proof.
  intros Hl. rewrite !Sxx_Sxy. unfold Sxy.
  apply cauchy_schwarz. rewrite !length_dev. exact Hl.
Qed.

Lemma Sxy_zero_r (x y : list R) :
  length y = length x -> Sxx y = 0 -> Sxy x y = 0.
Proof.
  intros Hl Hy. pose proof (Sxy_cauchy_schwarz x y Hl) as Hcs.
  rewrite Hy, Rmult_0_r in Hcs. nra.
Qed.

(** ** Pearson's r *)

Lemma Sxx_Syy_pos (x y : list R) :
  Sxx x <> 0 -> Sxx y <> 0 -> 0 < Sxx x * Sxx y.
Proof.
  intros Hx Hy. pose proof (Sxx_nonneg x). pose proof (Sxx_nonneg y).
  apply Rmult_lt_0_compat; lra.
Qed.

Lemma pearson_bound (x y : list R) :
  length y = length x -> Sxx x <> 0 -> Sxx y <> 0 ->
  -1 <= pearson x y <= 1.
Proof.
  intros Hl Hx Hy. unfold pearson.
  pose proof (Sxx_Syy_pos x y Hx Hy) as Hpos.
  pose proof (sqrt_lt_R0 _ Hpos) as Hs.
  pose proof (Sxy_cauchy_schwarz x y Hl) as Hcs.
  assert (Habs : Rabs (Sxy x y) <= sqrt (Sxx x * Sxx y)).
  { rewrite <- sqrt_Rsqr_abs. apply sqrt_le_1_alt. unfold Rsqr. exact Hcs. }
  assert (Hb : - sqrt (Sxx x * Sxx y) <= Sxy x y <= sqrt (Sxx x * Sxx y)).
  { revert Habs. unfold Rabs. destruct (Rcase_abs (Sxy x y)); lra. }
  split.
  - apply Rmult_le_reg_r with (r := sqrt (Sxx x * Sxx y)); [exact Hs|].
    unfold Rdiv. rewrite Rmult_assoc, Rinv_l by lra. lra.
  - apply Rmult_le_reg_r with (r := sqrt (Sxx x * Sxx y)); [exact Hs|].
    unfold Rdiv. rewrite Rmult_assoc, Rinv_l by lra. lra.
Qed.

Lemma ss_center (u : list R) : u <> [] -> ss (center u) = Fin (Sxx u).
Proof.
  intros Hu. unfold ss. rewrite center_lift by exact Hu.
  rewrite square_lift, sum_lift. reflexivity.
Qed.

Lemma nonempty_same_length {B C : Type} (u : list B) (v : list C) :
  length v = length u -> u <> [] -> v <> [].
Proof. destruct u, v; simpl; congruence. Qed.

Lemma col_r_sums (x y : list R) :
  x <> [] -> length y = length x ->
  col_r x y = ndiv (Fin (Sxy x y)) (Fin (sqrt (Sxx x * Sxx y))).
Proof.
  intros Hx Hl. pose proof (nonempty_same_length x y Hl Hx) as Hy.
  unfold col_r. rewrite !ss_center by assumption.
  rewrite !center_lift by assumption. rewrite inner_lift.
  cbn [nmul]. rewrite nsqrt_fin; [reflexivity|].
  apply Rmult_le_pos; apply Sxx_nonneg.
Qed.

Lemma col_r_pearson (x y : list R) :
  length y = length x -> Sxx x <> 0 -> Sxx y <> 0 ->
  col_r x y = Fin (pearson x y).
Proof.
  intros Hl Hx Hy. rewrite col_r_sums by (auto using Sxx_neq_0_nonempty).
  apply ndiv_fin. pose proof (sqrt_lt_R0 _ (Sxx_Syy_pos x y Hx Hy)). lra.
Qed.

(** A constant column: [0 / 0]. *)
Lemma col_r_constant (x y : list R) :
  x <> [] -> length y = length x -> Sxx y = 0 -> col_r x y = NaN.
Proof.
  intros Hx Hl Hy. rewrite col_r_sums by assumption.
  rewrite (Sxy_zero_r x y Hl Hy), Hy, Rmult_0_r, sqrt_0.
  simpl. destruct (Req_dec_T 0 0) as [_|Hn]; [|contradiction].
  unfold signed_inf. destruct (Rlt_dec 0 0); [lra | reflexivity].
Qed.

(** ** The t statistic, the p-value and the standard error *)

Lemma TINY_pos : 0 < TINY.
Proof. unfold TINY. lra. Qed.

Lemma tstat_fin (eps : R) (df : Z) (r : R) :
  0 < (1 - r + eps) * (1 + r + eps) -> (0 <= df)%Z ->
  tstat eps df (Fin r) = Fin (t_value eps df r).
Proof.
  intros Hden Hdf. unfold tstat, t_value. cbn [nsub nneg nadd nmul].
  replace (1 + - r + eps) with (1 - r + eps) by ring.
  rewrite ndiv_fin by lra.
  rewrite nsqrt_fin; [reflexivity|].
  apply Rmult_le_pos; [apply IZR_le; exact Hdf|].
  left. apply Rinv_0_lt_compat. exact Hden.
Qed.

Lemma tstat_denominator_pos (eps r : R) :
  0 < eps -> -1 <= r <= 1 -> 0 < (1 - r + eps) * (1 + r + eps).
Proof. intros He Hr. apply Rmult_lt_0_compat; lra. Qed.

Lemma col_t_fin (df : Z) (x y : list R) :
  length y = length x -> Sxx x <> 0 -> Sxx y <> 0 -> (0 <= df)%Z ->
  col_t df x y = Fin (t_value TINY df (pearson x y)).
Proof.
  intros Hl Hx Hy Hdf. unfold col_t. rewrite col_r_pearson by assumption.
  apply tstat_fin; [|exact Hdf].
  apply tstat_denominator_pos; [apply TINY_pos | apply pearson_bound; assumption].
Qed.

Lemma col_p_fin (sf : Z -> R -> R) (df : Z) (x y : list R) :
  length y = length x -> Sxx x <> 0 -> Sxx y <> 0 -> (0 < df)%Z ->
  col_p sf df x y = Fin (sf df (Rabs (t_value TINY df (pearson x y))) * 2).
Proof.
  intros Hl Hx Hy Hdf. unfold col_p. rewrite col_t_fin by (assumption || lia).
  unfold t_sf. destruct (Z.leb_spec df 0); [lia|]. reflexivity.
Qed.

(** [nan] goes through the t statistic and the survival function. *)
Lemma col_p_constant (sf : Z -> R -> R) (df : Z) (x y : list R) :
  x <> [] -> length y = length x -> Sxx y = 0 ->
  col_t df x y = NaN /\ col_p sf df x y = NaN.
Proof.
  intros Hx Hl Hy. unfold col_p, col_t. rewrite col_r_constant by assumption.
  split; [reflexivity|]. unfold t_sf; simpl. destruct (Z.leb df 0); reflexivity.
Qed.

Lemma residual_nonneg (x y : list R) :
  length y = length x -> Sxx x <> 0 ->
  0 <= Sxx y - ols_slope x y * ols_slope x y * Sxx x.
Proof.
  intros Hl Hx. unfold ols_slope.
  pose proof (Sxx_nonneg x) as Hxx. pose proof (Sxy_cauchy_schwarz x y Hl) as Hcs.
  assert (Hpos : 0 < Sxx x) by lra.
  replace (Sxx y - Sxy x y / Sxx x * (Sxy x y / Sxx x) * Sxx x)
    with ((Sxx x * Sxx y - Sxy x y * Sxy x y) / Sxx x) by (field; exact Hx).
  apply Rmult_le_pos; [lra|]. left. apply Rinv_0_lt_compat. exact Hpos.
Qed.

Lemma col_stderr_fin (df : Z) (x y : list R) :
  length y = length x -> Sxx x <> 0 -> (0 < df)%Z ->
  col_stderr (Fin (1 / IZR df)) x y (ols_slope x y) = Fin (slope_stderr df x y).
Proof.
  intros Hl Hx Hdf. pose proof (Sxx_neq_0_nonempty x Hx) as Hne.
  pose proof (nonempty_same_length x y Hl Hne) as Hy.
  unfold col_stderr, slope_stderr.
  fold (ss (center x)). fold (ss (center y)). rewrite !ss_center by assumption.
  cbn [nsub nneg nadd nmul].
  pose proof (residual_nonneg x y Hl Hx) as Hres.
  pose proof (Sxx_nonneg x) as Hxx.
  replace (Sxx y + - (ols_slope x y * ols_slope x y * Sxx x))
    with (Sxx y - ols_slope x y * ols_slope x y * Sxx x) by ring.
  rewrite !nsqrt_fin.
  - apply ndiv_fin. assert (0 < sqrt (Sxx x)) by (apply sqrt_lt_R0; lra). lra.
  - exact Hxx.
  - apply Rmult_le_pos; [|exact Hres].
    unfold Rdiv. rewrite Rmult_1_l. left. apply Rinv_0_lt_compat, IZR_lt. exact Hdf.
Qed.

(** ** Zero variance *)

Lemma sum_constant (c : R) (x : list R) :
  Forall (fun a => a = c) x -> sum x = INR (length x) * c.
Proof.
  induction 1 as [|a x Ha _ IH]; [simpl; ring|].
  cbn [sum length]. rewrite IH, S_INR, Ha. simpl. ring.
Qed.

(** [x] has zero variance exactly when all its elements are equal. *)
Lemma Sxx_zero_iff_constant (x : list R) :
  Sxx x = 0 <-> (forall a b, In a x -> In b x -> a = b).
Proof.
  split.
  - intros Hz a b Ha Hb. apply sum_square_zero in Hz.
    unfold dev in Hz. rewrite Forall_map, Forall_forall in Hz.
    pose proof (Hz a Ha). pose proof (Hz b Hb). simpl in *. lra.
  - intros Heq. destruct x as [|c x]; [reflexivity|].
    assert (Hall : Forall (fun a => a = c) (c :: x)).
    { apply Forall_forall. intros a Ha. apply Heq; [exact Ha | left; reflexivity]. }
    assert (Hm : rmean (c :: x) = c).
    { unfold rmean. rewrite (sum_constant c) by exact Hall.
      field. apply INR_length_neq_0. discriminate. }
    unfold Sxx, dev. rewrite Hm.
    assert (Hd : Forall (fun a => a = 0) (map (fun a => a - c) (c :: x))).
    { rewrite Forall_map. eapply Forall_impl; [|exact Hall].
      intros a Ha; simpl in *. lra. }
    rewrite ss_inner. apply inner_zero_l. exact Hd.
Qed.

(** ** Reordering the samples *)

Section Permuted.
Variables (n : nat) (sigma : list nat).
Hypothesis Hsigma : Permutation sigma (seq 0 n).

Lemma sigma_lt (i : nat) : In i sigma -> (i < n)%nat.
Proof.
  intros Hi. apply (Permutation_in _ Hsigma), in_seq in Hi. lia.
Qed.

Lemma length_sigma : length sigma = n.
Proof. rewrite (Permutation_length Hsigma). apply length_seq. Qed.

Lemma length_permute {B : Type} (d : B) (u : list B) :
  length (permute d sigma u) = n.
Proof. unfold permute. rewrite length_map. apply length_sigma. Qed.
















End Permuted.

(** ** Student's survival function takes values in [[0, 1/2]] on [t >= 0] *)


















(** With one degree of freedom Student's t is the Cauchy distribution. *)
Lemma student_sf_1 (t : R) : student_sf 1 t = 1 / 2 - atan t / PI.
Proof.
  unfold student_sf, t_two_sided, O_fun. simpl. rewrite sqrt_1.
  replace (t / 1) with t by field.
  pose proof PI_neq0. field. assumption.
Qed.

(** *** The tail of the distribution *)









(** ** [fit] on well-conditioned data *)


Lemma fit_returns (sf : Z -> R -> R) (x : list R) (ydata : array2 R) (n m : nat) :
  length x = n -> has_shape n m ydata -> (3 <= n)%nat -> Sxx x <> 0 ->
  fit sf x ydata =
  Ok (mk2 m
        (map (fun i => map (fun j => nth i (column_stats sf (Z.of_nat n - 2) x
                                              (column j ydata)) NaN) (seq 0 m))
             (seq 0 5))).
Proof.
  intros Hn Hs Hn3 Hx. rewrite (fit_regular sf x ydata n m) by assumption.
  rewrite py_div_df by exact Hn3. reflexivity.
Qed.



(** ** Slope and intercept: the batched solve against the closed forms *)




(** ** The shape and the rows of the result *)





(** ** Degenerate input *)




(** ** Noiseless data *)

Section Noiseless.
Variables (a b : R) (x : list R).
Let y := map (fun xi => a * xi + b) x.

Lemma sum_affine : sum y = a * sum x + INR (length x) * b.
Proof.
  unfold y. induction x as [|c l IH]; [simpl; ring|].
  cbn [map sum length]. rewrite IH, S_INR. simpl. ring.
Qed.

Lemma length_affine : length y = length x.
Proof. unfold y. apply length_map. Qed.

Lemma rmean_affine : x <> [] -> rmean y = a * rmean x + b.
Proof.
  intros Hx. unfold rmean. rewrite sum_affine, length_affine.
  field. apply INR_length_neq_0, Hx.
Qed.

Lemma dev_affine : x <> [] -> dev y = map (fun d => a * d) (dev x).
Proof.
  intros Hx. unfold dev. rewrite rmean_affine by exact Hx.
  unfold y. rewrite !map_map. apply map_ext. intros c. ring.
Qed.

Lemma inner_scale_r (c : R) (u v : list R) :
  inner u (map (fun d => c * d) v) = c * inner u v.
Proof.
  unfold inner. revert v; induction u as [|p u IH]; intros [|q v]; simpl in *;
    try ring.
  rewrite IH. ring.
Qed.

Lemma inner_scale_l (c : R) (u v : list R) :
  inner (map (fun d => c * d) u) v = c * inner u v.
Proof.
  unfold inner. revert v; induction u as [|p u IH]; intros [|q v]; simpl in *;
    try ring.
  rewrite IH. ring.
Qed.

Lemma Sxy_affine : x <> [] -> Sxy x y = a * Sxx x.
Proof.
  intros Hx. rewrite Sxx_Sxy. unfold Sxy. rewrite dev_affine by exact Hx.
  apply inner_scale_r.
Qed.

Lemma Sxx_affine : x <> [] -> Sxx y = a * a * Sxx x.
Proof.
  intros Hx. rewrite !Sxx_Sxy. unfold Sxy. rewrite dev_affine by exact Hx.
  rewrite inner_scale_r, inner_scale_l. ring.
Qed.

Hypothesis Hx : Sxx x <> 0.

Lemma ols_slope_affine : ols_slope x y = a.
Proof.
  unfold ols_slope. rewrite Sxy_affine by (apply Sxx_neq_0_nonempty, Hx).
  field. exact Hx.
Qed.

Lemma ols_intercept_affine : ols_intercept x y = b.
Proof.
  unfold ols_intercept. rewrite ols_slope_affine.
  rewrite rmean_affine by (apply Sxx_neq_0_nonempty, Hx). ring.
Qed.

Lemma pearson_affine : a <> 0 -> pearson x y = sign a.
Proof.
  intros Ha. pose proof (Sxx_neq_0_nonempty x Hx) as Hne.
  pose proof (Sxx_nonneg x) as Hnn.
  unfold pearson. rewrite Sxy_affine, Sxx_affine by exact Hne.
  replace (Sxx x * (a * a * Sxx x)) with (Rsqr (a * Sxx x)) by (unfold Rsqr; ring).
  rewrite sqrt_Rsqr_abs, Rabs_mult, (Rabs_right (Sxx x)) by lra.
  unfold sign. destruct (Rlt_dec 0 a) as [Hp|Hnp].
  - rewrite Rabs_right by lra. field. lra.
  - destruct (Rlt_dec a 0) as [Hn|Hnn']; [|lra].
    rewrite Rabs_left by exact Hn. field. split; lra.
Qed.

Lemma slope_stderr_affine (df : Z) : slope_stderr df x y = 0.
Proof.
  unfold slope_stderr. rewrite ols_slope_affine.
  rewrite Sxx_affine by (apply Sxx_neq_0_nonempty, Hx).
  replace (1 / IZR df * (a * a * Sxx x - a * a * Sxx x)) with 0 by ring.
  rewrite sqrt_0. unfold Rdiv. ring.
Qed.
End Noiseless.

(** The t statistic of a perfect correlation. *)
Lemma t_value_perfect (df : Z) (a : R) :
  a <> 0 -> (0 <= df)%Z ->
  Rabs (t_value TINY df (sign a)) = sqrt (IZR df / (TINY * (2 + TINY))).
Proof.
  intros Ha Hdf. unfold t_value, sign.
  assert (Hs : 0 <= sqrt (IZR df / (TINY * (2 + TINY)))) by apply sqrt_pos.
  destruct (Rlt_dec 0 a) as [Hp|Hnp]; [|destruct (Rlt_dec a 0) as [Hn|Hnn]; [|lra]].
  - replace ((1 - 1 + TINY) * (1 + 1 + TINY)) with (TINY * (2 + TINY)) by ring.
    rewrite Rmult_1_l. apply Rabs_right. lra.
  - replace ((1 - -1 + TINY) * (1 + -1 + TINY)) with (TINY * (2 + TINY)) by ring.
    rewrite Rabs_mult, Rabs_left, (Rabs_right (sqrt _)) by lra. ring.
Qed.






(** ** A constant column *)




(** ** Independence of the columns *)

Lemma column_stats_rows (m k : nat) (f : nat -> list num) :
  (k < m)%nat ->
  column k (mk2 m (map (fun i => map (fun j => nth i (f j) NaN) (seq 0 m)) (seq 0 5))) =
  map (fun i => nth i (f k) NaN) (seq 0 5).
Proof.
  intros Hk. unfold column; cbn [rows]. rewrite map_map.
  apply map_ext. intros i.
  apply (nth_map_seq' (fun j => nth i (f j) NaN)). exact Hk.
Qed.

Lemma fit_regular_table
      (sf : Z -> R -> R) (x : list R) (Y : array2 R) (n m : nat) :
  length x = n -> has_shape n m Y -> Sxx x <> 0 ->
  fit sf x Y =
    inv_df <- py_div 1 (Z.of_nat n - 2) ;;
    Ok (mk2 m
          (map (fun i =>
                  map (fun j =>
                         nth i [Fin (ols_slope x (column j Y));
                                Fin (ols_intercept x (column j Y));
                                col_r x (column j Y);
                                col_p sf (Z.of_nat n - 2) x (column j Y);
                                col_stderr inv_df x (column j Y)
                                           (ols_slope x (column j Y))] NaN)
                      (seq 0 m))
               (seq 0 5))).
Proof. intros Hn Hs Hx. apply fit_regular; assumption. Qed.

Lemma column_agree
      (sf : Z -> R -> R) (x : list R) (Y Y' : array2 R) (n m m' k : nat) :
  length x = n -> has_shape n m Y -> has_shape n m' Y' ->
  (k < m)%nat -> (k < m')%nat -> column k Y = column k Y' ->
  fmap (column k) (fit sf x Y) = fmap (column k) (fit sf x Y').
Proof.
  intros Hn Hs Hs' Hk Hk' Hcol.
  destruct (Req_dec_T (Sxx x) 0) as [Hz|Hnz].
  - rewrite (fit_singular sf x Y n m), (fit_singular sf x Y' n m')
      by (assumption || lia).
    reflexivity.
  - rewrite (fit_regular_table sf x Y n m), (fit_regular_table sf x Y' n m')
      by assumption.
    destruct (py_div 1 (Z.of_nat n - 2)) as [inv_df|e]; [|reflexivity].
    unfold fmap; cbn [bind]. f_equal.
    rewrite (column_stats_rows m k
               (fun j => [Fin (ols_slope x (column j Y));
                          Fin (ols_intercept x (column j Y));
                          col_r x (column j Y);
                          col_p sf (Z.of_nat n - 2) x (column j Y);
                          col_stderr inv_df x (column j Y)
                                     (ols_slope x (column j Y))])) by exact Hk.
    rewrite (column_stats_rows m' k
               (fun j => [Fin (ols_slope x (column j Y'));
                          Fin (ols_intercept x (column j Y'));
                          col_r x (column j Y');
                          col_p sf (Z.of_nat n - 2) x (column j Y');
                          col_stderr inv_df x (column j Y')
                                     (ols_slope x (column j Y'))])) by exact Hk'.
    rewrite Hcol. reflexivity.
Qed.

Section PermutedColumns.
Variables (m : nat) (tau : list nat).
Hypothesis Htau : Permutation tau (seq 0 m).

Lemma has_shape_permute_cols (n : nat) (a : array2 R) :
  has_shape n m a -> has_shape n m (permute_cols 0 tau a).
Proof.
  intros (H0 & H1 & Hr). unfold has_shape, shape0, permute_cols in *; simpl.
  rewrite length_map. repeat split; auto.
  - apply (length_sigma m tau Htau).
  - rewrite Forall_map, Forall_forall. intros r _.
    apply (length_permute m tau Htau).
Qed.

Lemma column_permute_cols (j : nat) (a : array2 R) :
  (j < m)%nat -> column j (permute_cols 0 tau a) = column (nth j tau 0%nat) a.
Proof.
  intros Hj. unfold column, permute_cols, permute; simpl. rewrite map_map.
  apply map_ext. intros r.
  apply (nth_map_in (fun k => nth k r 0)).
  rewrite (length_sigma m tau Htau). exact Hj.
Qed.

Lemma map_columns_permuted {B : Type} (f : list R -> B) (a : array2 R) :
  map (fun j => f (column j (permute_cols 0 tau a))) (seq 0 m) =
  map (fun k => f (column k a)) tau.
Proof.
  transitivity (map (fun k => f (column k a))
                    (map (fun j => nth j tau 0%nat) (seq 0 m))).
  - rewrite map_map. apply map_ext_in. intros j Hj. apply in_seq in Hj.
    rewrite column_permute_cols by lia. reflexivity.
  - rewrite <- (length_sigma m tau Htau), map_seq_nth. reflexivity.
Qed.

Lemma permute_map_seq {B : Type} (d : B) (f : nat -> B) :
  permute d tau (map f (seq 0 m)) = map f tau.
Proof.
  unfold permute. apply map_ext_in. intros k Hk.
  apply nth_map_seq'. apply (sigma_lt m tau Htau), Hk.
Qed.

Lemma fit_permute_cols (sf : Z -> R -> R) (x : list R) (Y : array2 R) (n : nat) :
  length x = n -> has_shape n m Y ->
  fit sf x (permute_cols 0 tau Y) = fmap (permute_cols NaN tau) (fit sf x Y).
Proof.
  intros Hn Hs. pose proof (has_shape_permute_cols n Y Hs) as Hs'.
  pose proof (length_sigma m tau Htau) as Hlen.
  destruct (Nat.eq_dec m 0) as [Hm0|Hm0].
  - subst m. destruct tau; [|discriminate].
    rewrite (fit_no_columns sf x _ n), (fit_no_columns sf x Y n) by assumption.
    destruct (py_div 1 (Z.of_nat n - 2)); reflexivity.
  - destruct (Req_dec_T (Sxx x) 0) as [Hz|Hnz].
    + rewrite (fit_singular sf x _ n m), (fit_singular sf x Y n m)
        by (assumption || lia).
      reflexivity.
    + rewrite (fit_regular sf x _ n m), (fit_regular sf x Y n m) by assumption.
      destruct (py_div 1 (Z.of_nat n - 2)) as [inv_df|e]; [|reflexivity].
      unfold fmap; cbn [bind].
      rewrite (map_columns_permuted (fun y => Fin (ols_slope x y))).
      rewrite (map_columns_permuted (fun y => Fin (ols_intercept x y))).
      rewrite (map_columns_permuted (fun y => col_r x y)).
      rewrite (map_columns_permuted (fun y => col_p sf (Z.of_nat n - 2) x y)).
      rewrite (map_columns_permuted
                 (fun y => col_stderr inv_df x y (ols_slope x y))).
      unfold permute_cols; cbn [rows map].
      rewrite !permute_map_seq, Hlen. reflexivity.
Qed.
End PermutedColumns.

(** C6.  Output column [k] depends only on [x] and column [k] of [Y]: two
    arrays that agree on column [k] give the same exception or the same
    output column [k], and permuting the columns of [Y] permutes the output
    columns in the same way. *)
Theorem C6_columns_are_independent
        (sf : Z -> R -> R) (x : list R) (Y : array2 R) (n m : nat) :
  length x = n -> has_shape n m Y ->
  (forall (Y' : array2 R) (m' k : nat),
      has_shape n m' Y' -> (k < m)%nat -> (k < m')%nat ->
      column k Y = column k Y' ->
      fmap (column k) (fit sf x Y) = fmap (column k) (fit sf x Y')) /\
  (forall tau : list nat,
      Permutation tau (seq 0 m) ->
      fit sf x (permute_cols 0 tau Y) = fmap (permute_cols NaN tau) (fit sf x Y)).
Proof.
  intros Hn Hs. split.
  - intros Y' m' k Hs' Hk Hk' Hcol. apply (column_agree sf x Y Y' n m m' k); assumption.
  - intros tau Htau. apply (fit_permute_cols m tau Htau sf x Y n); assumption.
Qed.

Lemma C6_witness :
  fmap (column 0) (fit student_sf [0; 1; 2] (mk2 2 [[1; 0]; [3; 0]; [5; 1]])) =
  fmap (column 0) (fit student_sf [0; 1; 2] (mk2 3 [[1; 7; 7]; [3; 8; 7]; [5; 9; 7]])) /\
  fit student_sf [0; 1; 2] (permute_cols 0 [1; 0]%nat (mk2 2 [[1; 0]; [3; 0]; [5; 1]])) =
  fmap (permute_cols NaN [1; 0]%nat)
       (fit student_sf [0; 1; 2] (mk2 2 [[1; 0]; [3; 0]; [5; 1]])).
Proof.
  destruct (C6_columns_are_independent
              student_sf [0; 1; 2] (mk2 2 [[1; 0]; [3; 0]; [5; 1]]) 3 2)
    as [Hagree Hperm].
  - reflexivity.
  - shape_tac.
  - split.
    + apply (Hagree _ 3%nat 0%nat); [shape_tac | lia | lia | reflexivity].
    + apply Hperm. apply perm_swap.
Defined.

(** ** Samples in another order *)




(** ** The ranges of r and of the p-value *)






(** ** Slope, correlation and the t statistic *)





(** ** The scenarios of the specification, evaluated *)

Lemma sign_pos (a : R) : 0 < a -> sign a = 1.
Proof. intros Ha. unfold sign. destruct (Rlt_dec 0 a); [reflexivity | contradiction]. Qed.

Lemma sign_neg (a : R) : a < 0 -> sign a = -1.
Proof.
  intros Ha. unfold sign.
  destruct (Rlt_dec 0 a); [lra|]. destruct (Rlt_dec a 0); [reflexivity | contradiction].
Qed.

(** What [fit] returns for one column that lies on the line [a * x + b]. *)
Lemma fit_line (sf : Z -> R -> R) (x y : list R) (n : nat) (a b : R) :
  length x = n -> (3 <= n)%nat -> Sxx x <> 0 -> a <> 0 ->
  y = map (fun xi => a * xi + b) x ->
  fit sf x (mk2 1 (map (fun yi => [yi]) y)) =
  Ok (mk2 1 [[Fin a]; [Fin b]; [Fin (sign a)];
             [Fin (sf (Z.of_nat n - 2)%Z
                      (sqrt (IZR (Z.of_nat n - 2) / (TINY * (2 + TINY)))) * 2)];
             [Fin 0]]).
Proof.
  intros Hn Hn3 Hx Ha Hy.
  assert (Hs : has_shape n 1 (mk2 1 (map (fun yi => [yi]) y))).
  { unfold has_shape, shape0; simpl. rewrite length_map, Hy, length_map.
    repeat split; [exact Hn|]. rewrite Forall_map. apply Forall_forall. reflexivity. }
  assert (Hcol : column 0 (mk2 1 (map (fun yi => [yi]) y)) = y).
  { unfold column; simpl. rewrite map_map. apply map_id. }
  assert (Hyy : Sxx y <> 0).
  { rewrite Hy, Sxx_affine by (apply Sxx_neq_0_nonempty, Hx).
    repeat apply Rmult_integral_contrapositive_currified; assumption. }
  assert (Hl : length y = length x) by (rewrite Hy; apply length_map).
  rewrite (fit_returns sf x _ n 1) by assumption.
  cbn [seq map nth column_stats]. rewrite Hcol.
  rewrite col_r_pearson, col_p_fin, col_stderr_fin by (assumption || lia).
  rewrite Hy.
  rewrite ols_slope_affine, ols_intercept_affine, pearson_affine,
    slope_stderr_affine by assumption.
  rewrite t_value_perfect by (assumption || lia).
  reflexivity.
Qed.

(** [x = [1,2,3,4,5]], [y = [2,4,6,8,10]]: slope 2, intercept 0, r = 1,
    stderr 0, and a p-value at a t statistic of about [1.2e10]. *)
Example scenario_increasing_line (sf : Z -> R -> R) :
  fit sf [1; 2; 3; 4; 5] (mk2 1 [[2]; [4]; [6]; [8]; [10]]) =
  Ok (mk2 1 [[Fin 2]; [Fin 0]; [Fin 1];
             [Fin (sf 3%Z (sqrt (3 / (TINY * (2 + TINY)))) * 2)];
             [Fin 0]]).
Proof.
  assert (Hfit := fit_line sf [1; 2; 3; 4; 5] [2; 4; 6; 8; 10] 5 2 0).
  rewrite sign_pos in Hfit by lra.
  apply Hfit; [reflexivity | lia | sums_tac; lra | lra |].
  simpl. repeat (f_equal; try lra).
Qed.

(** [x = [1,2,3,4,5]], [y = [5,4,3,2,1]]: slope -1, intercept 6, r = -1,
    stderr 0. *)
Example scenario_decreasing_line (sf : Z -> R -> R) :
  fit sf [1; 2; 3; 4; 5] (mk2 1 [[5]; [4]; [3]; [2]; [1]]) =
  Ok (mk2 1 [[Fin (-1)]; [Fin 6]; [Fin (-1)];
             [Fin (sf 3%Z (sqrt (3 / (TINY * (2 + TINY)))) * 2)];
             [Fin 0]]).
Proof.
  assert (Hfit := fit_line sf [1; 2; 3; 4; 5] [5; 4; 3; 2; 1] 5 (-1) 6).
  rewrite sign_neg in Hfit by lra.
  apply Hfit; [reflexivity | lia | sums_tac; lra | lra |].
  simpl. repeat (f_equal; try lra).
Qed.

(** A constant column: slope 0, intercept the constant, r and p [nan],
    stderr 0. *)
Example scenario_constant_column (sf : Z -> R -> R) :
  fit sf [0; 1; 2] (mk2 1 [[3]; [3]; [3]]) =
  Ok (mk2 1 [[Fin 0]; [Fin 3]; [NaN]; [NaN]; [Fin 0]]).
Proof.
  assert (Hx : Sxx [0; 1; 2] <> 0) by (sums_tac; lra).
  assert (Hy : Sxx [3; 3; 3] = 0) by (sums_tac; field).
  rewrite (fit_returns sf [0; 1; 2] _ 3 1) by (reflexivity || shape_tac || lia || exact Hx).
  cbn [seq map nth column_stats].
  change (column 0 (mk2 1 [[3]; [3]; [3]])) with [3; 3; 3].
  destruct (col_p_constant sf (Z.of_nat 3 - 2) [0; 1; 2] [3; 3; 3])
    as [_ Hp]; [discriminate | reflexivity | exact Hy |].
  rewrite Hp, col_r_constant by (discriminate || reflexivity || exact Hy).
  rewrite col_stderr_fin by (reflexivity || exact Hx || lia).
  replace (ols_slope [0; 1; 2] [3; 3; 3]) with 0 by (unfold ols_slope; sums_tac; field).
  replace (ols_intercept [0; 1; 2] [3; 3; 3]) with 3
    by (unfold ols_intercept, ols_slope; sums_tac; field).
  replace (slope_stderr (Z.of_nat 3 - 2) [0; 1; 2] [3; 3; 3]) with 0; [reflexivity|].
  unfold slope_stderr.
  replace (ols_slope [0; 1; 2] [3; 3; 3]) with 0 by (unfold ols_slope; sums_tac; field).
  rewrite Hy. replace (1 / IZR (Z.of_nat 3 - 2) * (0 - 0 * 0 * Sxx [0; 1; 2])) with 0
    by (simpl; field).
  rewrite sqrt_0. unfold Rdiv. ring.
Qed.

(** Mismatched lengths are caught by the first product with [ydata]. *)
Example fit_shapes_not_aligned (sf : Z -> R -> R) :
  fit sf [1; 2; 3] (mk2 1 [[1]; [2]]) = Raise ValueError.
Proof. reflexivity. Qed.

(** A system whose second row is the pivot row. *)
Example lu_solve2_pivots : lu_solve2 1 2 3 4 5 6 = Ok (-4, 9 / 2).
Proof.
  rewrite lu_solve2_cramer by lra. f_equal. f_equal; field.
Qed.

(** * Further properties of [fit] *)

(** ** Which inputs [fit] accepts *)

(** X1.  When [xdata] and [ydata] do not have the same number of samples,
    the product [np.dot(xdata_plus_const.T, ydata)] raises [ValueError],
    before anything is solved: no other exception can come first. *)
Theorem X1_misaligned_samples_raise_ValueError
        (sf : Z -> R -> R) (x : list R) (Y : array2 R) :
  shape0 Y <> length x -> fit sf x Y = Raise ValueError.
Proof.
  intros Hne. unfold fit.
  rewrite dot_design_design; cbn [bind].
  rewrite transpose_add_constant. unfold dot at 1. cbn [shape1].
  destruct (Nat.eqb_spec (length x) (shape0 Y)) as [Heq|_]; [|reflexivity].
  exfalso. apply Hne. symmetry. exact Heq.
Qed.

Lemma X1_witness :
  fit student_sf [1; 1; 1] (mk2 1 [[1]; [2]]) = Raise ValueError.
Proof.
  apply (X1_misaligned_samples_raise_ValueError student_sf [1; 1; 1] (mk2 1 [[1]; [2]])).
  unfold shape0; simpl. lia.
Defined.



(** ** The fitted line and its residuals *)







Lemma rss_nonneg (s c : R) (x y : list R) : 0 <= rss s c x y.
Proof. apply sum_square_nonneg. Qed.










(** ** Where [nan] can appear *)



(** ** The guard [TINY] *)




(** ** Change of units *)

Lemma sign_sqr (a : R) : a <> 0 -> sign a * sign a = 1.
Proof.
  intros Ha. unfold sign.
  destruct (Rlt_dec 0 a); [ring|]. destruct (Rlt_dec a 0); [ring | lra].
Qed.





Section AffineColumn.
Variables (a b : R) (x y : list R).
Hypothesis Ha : a <> 0.
Hypothesis Hl : length y = length x.
Hypothesis Hx : Sxx x <> 0.







End AffineColumn.



Section AffineX.
Variables (a b : R) (x y : list R).
Hypothesis Ha : a <> 0.
Hypothesis Hl : length y = length x.
Hypothesis Hx : Sxx x <> 0.








End AffineX.



(** ** The two regressions of a pair of series *)








(** ** The p-value as a function of r *)











(** ** The explained sum of squares *)



(** ** The solve *)

